(** * HashTable: a chained hash table over Python dictionaries

    Shallow embedding of [src/main.py].  The class [HashTable] owns one
    attribute, [collection], a Python [dict] from integer hash codes to
    buckets; a bucket is again a [dict], from the original string key to
    the stored value.  Python dictionaries are modelled by stdpp's [gmap];
    the methods are written in a small state-and-exception monad so that
    the [KeyError] of a subscript or a [del] on a missing key is part of
    the model and "never raises" is a statement one has to prove. *)

From Stdlib Require Import ZArith NArith Ascii String.
From stdpp Require Import base decidable option list gmap fin_maps.

Local Open Scope Z_scope.

(** ** Python data *)

(** A Python [str] is a sequence of Unicode code points; iterating over it
    yields its characters one by one, and two strings are equal when they
    have the same code points in the same order.  A character is
    represented by its code point; Python's code points stop at 0x10FFFF,
    a bound nothing below depends on. *)
Definition char : Type := N.
Abbreviation str := (list N).

(** [ord(c)]: the code point of a character, a Python [int]. *)
Definition ord (c : char) : Z := Z.of_N c.

(** String literals, as sequences of code points. *)
Definition py (s : string) : str :=
  List.map N_of_ascii (list_ascii_of_string s).

(** Values are unconstrained: [None] or any other object, whose type [V] is
    left to the caller. *)
Inductive object (V : Type) : Type :=
  | PyNone : object V
  | PyObj : V → object V.
Arguments PyNone {V}.
Arguments PyObj {V} _.

(** The only exception the dictionary operations used here can raise. *)
Inductive exn : Type := KeyError.

(** ** Python [dict] primitives on [gmap] *)
Module Dict.
Section dict.
Context {K : Type} `{Countable K} {A : Type}.
Implicit Types (d : gmap K A) (k : K) (a : A).

(** [k in d] *)
Definition contains d k : bool := bool_decide (is_Some (d !! k)).

(** [d[k]], raising [KeyError] on a missing key *)
Definition getitem d k : exn + A :=
  match d !! k with
  | Some a => inr a
  | None => inl KeyError
  end.

(** [d[k] = a] *)
Definition setitem d k a : gmap K A := <[k := a]> d.

(** [del d[k]], raising [KeyError] on a missing key *)
Definition delitem d k : exn + gmap K A :=
  match d !! k with
  | Some _ => inr (delete k d)
  | None => inl KeyError
  end.

End dict.
End Dict.

(** ** The class *)
Section HashTable.
Context {V : Type}.

(** [self]: the instance, with its single attribute. *)
Record HashTable : Type := mkHashTable {
  collection : gmap Z (gmap str (object V))
}.

(** [__init__]: [self.collection = {}] *)
Definition init : HashTable := {| collection := ∅ |}.

(** A method body: it reads and writes [self] and either raises or
    returns a result together with the instance it leaves behind. *)
Definition M (A : Type) : Type := HashTable → exn + (A * HashTable).

Definition ret {A} (a : A) : M A := λ self, inr (a, self).

Definition raise {A} (e : exn) : M A := λ _, inl e.

Definition bind {A B} (m : M A) (f : A → M B) : M B :=
  λ self,
    match m self with
    | inl e => inl e
    | inr (a, self') => f a self'
    end.

(** The outcome of a dictionary primitive, inside a method. *)
Definition lift {A} (r : exn + A) : M A :=
  match r with
  | inl e => raise e
  | inr a => ret a
  end.

(** [self.collection] *)
Definition get_collection : M (gmap Z (gmap str (object V))) :=
  λ self, inr (collection self, self).

(** Storing a bucket under a hash code of [self.collection].  Buckets are
    created by a fresh [{}] and reached only through [collection], so
    updating a bucket in place is storing the updated bucket under its
    hash code. *)
Definition put_bucket (h : Z) (b : gmap str (object V)) : M unit :=
  λ self, inr (tt, {| collection := Dict.setitem (collection self) h b |}).

End HashTable.

Arguments HashTable V : clear implicits.
Arguments M V A : clear implicits.

#[global] Instance M_ret {V} : MRet (M V) := @ret V.
#[global] Instance M_bind {V} : MBind (M V) := λ A B f m, bind m f.

Section Methods.
Context {V : Type}.

(** The loop of [hash]: [hash = 0; for c in string: hash += ord(c)]. *)
Definition hash_code (string : str) : Z :=
  fold_left (λ hash c, hash + ord c) string 0.

(** [def hash(self, string)]: runs the loop and returns the accumulator;
    [self] is not used. *)
Definition hash (string : str) : M V Z :=
  let hash := hash_code string in
  mret hash.

(** [def add(self, key, value)] *)
Definition add (key : str) (value : object V) : M V unit :=
  computed_hash ← hash key;
  c ← get_collection;
  (if negb (Dict.contains c computed_hash)
   then put_bucket computed_hash ∅
   else mret tt);;
  c ← get_collection;
  b ← lift (Dict.getitem c computed_hash);
  put_bucket computed_hash (Dict.setitem b key value).

(** [def remove(self, key)] *)
Definition remove (key : str) : M V unit :=
  computed_hash ← hash key;
  c ← get_collection;
  if Dict.contains c computed_hash then
    b ← lift (Dict.getitem c computed_hash);
    if Dict.contains b key then
      b ← lift (Dict.getitem c computed_hash);
      b' ← lift (Dict.delitem b key);
      put_bucket computed_hash b'
    else mret tt
  else mret tt.

(** [def lookup(self, key)] *)
Definition lookup (key : str) : M V (object V) :=
  computed_hash ← hash key;
  c ← get_collection;
  if Dict.contains c computed_hash then
    b ← lift (Dict.getitem c computed_hash);
    if Dict.contains b key then
      b ← lift (Dict.getitem c computed_hash);
      lift (Dict.getitem b key)
    else mret PyNone
  else mret PyNone.

End Methods.

(** ** Vocabulary of the specification *)

(** The sum of the code points of the characters of the key. *)
Definition codepoint_sum (key : str) : Z :=
  foldr (λ c total, ord c + total) 0 key.

Section Vocabulary.
Context {V : Type}.
Implicit Types (self : HashTable V) (key : str) (h : Z).

(** The bucket [add] writes into: the one already stored under the hash
    code, or the fresh [{}] it has just created. *)
Definition bucket_at h self : gmap str (object V) :=
  default ∅ (collection self !! h).

(** What a lookup reads: the entry of [key] in the bucket under its hash
    code, if there is one. *)
Definition entry self key : option (object V) :=
  collection self !! hash_code key ≫= (.!! key).

(** [key] is not present: there is no bucket under its hash code, or
    the bucket there lacks it. *)
Definition absent self key : Prop :=
  collection self !! hash_code key = None
  ∨ ∃ b, collection self !! hash_code key = Some b ∧ b !! key = None.

(** A bucket exists under the hash code [h]. *)
Definition has_bucket self h : Prop := is_Some (collection self !! h).

(** [key] appears in the bucket stored under [h]. *)
Definition holds self h key : Prop :=
  ∃ b, collection self !! h = Some b ∧ is_Some (b !! key).

(** [key] is stored somewhere in the table. *)
Definition stored self key : Prop := ∃ h, holds self h key.

(** Every stored key appears in exactly one bucket, the one under its
    hash code. *)
Definition one_bucket_per_key self : Prop :=
  ∀ key, stored self key →
    holds self (hash_code key) key ∧ ∀ h, holds self h key → h = hash_code key.

(** The same, as a check that runs over the two levels of the table. *)
Definition well_placed self : Prop :=
  map_Forall (λ h b, map_Forall (λ key _, hash_code key = h) b)
             (collection self).

#[global] Instance well_placed_dec self : Decision (well_placed self).
Proof. unfold well_placed. apply _. Defined.

(** The entries of a bucket stored under [key], as [items()] lists them. *)
Definition entries_for key (b : gmap str (object V))
  : list (str * object V) :=
  filter (λ kv, kv.1 = key) (map_to_list b).

(** The tables a caller can build: the fresh one, and whatever the three
    methods leave behind. *)
Inductive reachable : HashTable V → Prop :=
  | reachable_init : reachable init
  | reachable_add self key value self' :
      reachable self → add key value self = inr (tt, self') → reachable self'
  | reachable_remove self key self' :
      reachable self → remove key self = inr (tt, self') → reachable self'
  | reachable_lookup self key r self' :
      reachable self → lookup key self = inr (r, self') → reachable self'.

End Vocabulary.

(** ** The table as a plain dictionary *)
Section Abstraction.
Context {V : Type}.
Implicit Types (self : HashTable V) (key : str).

(** The table stands for the dictionary [m]: what is filed for a key under
    its hash code is what [m] has for it. *)
Definition represents self (m : gmap str (object V)) : Prop :=
  ∀ key, entry self key = m !! key.

(** The hash codes under which the table keeps a bucket. *)
Definition bucket_codes self : gset Z := dom (collection self).

End Abstraction.

(** ** Callers: sequences of method calls *)
Section Calls.
Context {V : Type}.

(** One call on a table. *)
Inductive call : Type :=
  | Add (key : str) (value : object V)
  | Remove (key : str)
  | Lookup (key : str).

(** The key a call is about. *)
Definition call_key (c : call) : str :=
  match c with
  | Add key _ => key
  | Remove key => key
  | Lookup key => key
  end.

(** Making the call; [add] and [remove] return [None] as every Python
    function without a [return] does. *)
Definition perform (c : call) : M V (object V) :=
  match c with
  | Add key value => add key value;; mret PyNone
  | Remove key => remove key;; mret PyNone
  | Lookup key => lookup key
  end.

(** Making the calls one after the other, results dropped. *)
Fixpoint perform_all (cs : list call) : M V unit :=
  match cs with
  | [] => mret tt
  | c :: cs => perform c;; perform_all cs
  end.

(** The same calls on a plain dictionary: [d[key] = value],
    dropping [key] if it is there, and nothing for a lookup. *)
Definition dict_call (m : gmap str (object V)) (c : call)
  : gmap str (object V) :=
  match c with
  | Add key value => <[key := value]> m
  | Remove key => delete key m
  | Lookup _ => m
  end.

Definition dict_calls (cs : list call) (m : gmap str (object V))
  : gmap str (object V) :=
  foldl dict_call m cs.

End Calls.

Arguments call V : clear implicits.

(** ** Dictionary membership *)
Section DictFacts.
Context {K : Type} `{Countable K} {A : Type}.
Implicit Types (d : gmap K A) (k : K).

Lemma dict_contains_true d k : Dict.contains d k = true ↔ is_Some (d !! k).
Proof. unfold Dict.contains. by rewrite bool_decide_eq_true. Qed.

Lemma dict_contains_false d k : Dict.contains d k = false ↔ d !! k = None.
Proof.
  unfold Dict.contains. rewrite bool_decide_eq_false.
  symmetry. apply eq_None_not_Some.
Qed.

End DictFacts.

(** ** What each method computes *)
Section Equations.
Context {V : Type}.
Implicit Types (self : HashTable V) (key : str) (value : object V).

Lemma hash_eq key self : hash key self = inr (hash_code key, self).
Proof. reflexivity. Qed.

Lemma add_eq key value self :
  add key value self =
  inr (tt, {| collection :=
                <[hash_code key :=
                    <[key := value]> (bucket_at (hash_code key) self)]>
                  (collection self) |}).
Proof.
  unfold add, bucket_at, mbind, M_bind, bind. rewrite hash_eq. simpl.
  destruct (Dict.contains (collection self) (hash_code key)) eqn:E; simpl.
  - apply dict_contains_true in E as [b Hb].
    unfold Dict.getitem, Dict.setitem. by rewrite Hb.
  - apply dict_contains_false in E.
    unfold Dict.getitem, Dict.setitem. rewrite lookup_insert_eq, E. simpl.
    unfold put_bucket, Dict.setitem. simpl. by rewrite insert_insert_eq.
Qed.

Lemma remove_eq key self :
  remove key self =
  inr (tt,
       match collection self !! hash_code key with
       | Some b =>
           if decide (is_Some (b !! key))
           then {| collection :=
                     <[hash_code key := delete key b]> (collection self) |}
           else self
       | None => self
       end).
Proof.
  unfold remove, mbind, M_bind, bind. rewrite hash_eq. simpl.
  destruct (Dict.contains (collection self) (hash_code key)) eqn:E.
  - apply dict_contains_true in E as [b Hb].
    unfold Dict.getitem. rewrite Hb. simpl.
    destruct (Dict.contains b key) eqn:Ek.
    + apply dict_contains_true in Ek. rewrite decide_True by done.
      destruct Ek as [v Hv]. unfold Dict.delitem. by rewrite Hv.
    + apply dict_contains_false in Ek. rewrite decide_False; [done|].
      rewrite Ek. by intros [? ?].
  - apply dict_contains_false in E. by rewrite E.
Qed.

Lemma lookup_entry key self :
  lookup key self = inr (default PyNone (entry self key), self).
Proof.
  unfold entry, lookup, mbind at 1 2, M_bind, bind. rewrite hash_eq. simpl.
  destruct (Dict.contains (collection self) (hash_code key)) eqn:E.
  - apply dict_contains_true in E as [b Hb].
    unfold Dict.getitem, mbind at 1 2, bind. rewrite Hb. simpl.
    destruct (Dict.contains b key) eqn:Ek.
    + apply dict_contains_true in Ek as [v Hv]. simpl. by rewrite Hv.
    + apply dict_contains_false in Ek. by rewrite Ek.
  - apply dict_contains_false in E. by rewrite E.
Qed.

(** None of the three methods raises. *)
Lemma add_total key value self : ∃ self', add key value self = inr (tt, self').
Proof. rewrite add_eq. eauto. Qed.

Lemma remove_total self key : ∃ self', remove key self = inr (tt, self').
Proof. rewrite remove_eq. eauto. Qed.

Lemma lookup_total self key : ∃ r, lookup key self = inr (r, self).
Proof. rewrite lookup_entry. eauto. Qed.

End Equations.

(** ** The entry of a key across [add] and [remove] *)
Section Entries.
Context {V : Type}.
Implicit Types (self : HashTable V) (key : str) (value : object V).

Lemma absent_entry self key : absent self key ↔ entry self key = None.
Proof.
  unfold absent, entry.
  destruct (collection self !! hash_code key) as [b|]; simpl.
  - split; [intros [?|(b' & [= <-] & ?)]; done|]. right. by exists b.
  - split; [done|by left].
Qed.

Lemma entry_add_eq key value self self' :
  add key value self = inr (tt, self') → entry self' key = Some value.
Proof.
  rewrite add_eq. intros [= <-]. unfold entry. simpl.
  rewrite lookup_insert_eq. simpl. apply lookup_insert_eq.
Qed.

Lemma entry_add_ne key key' value self self' :
  key' ≠ key →
  add key value self = inr (tt, self') → entry self' key' = entry self key'.
Proof.
  intros Hne. rewrite add_eq. intros [= <-]. unfold entry, bucket_at. simpl.
  destruct (decide (hash_code key = hash_code key')) as [Hh|Hh].
  - rewrite <- Hh, lookup_insert_eq. simpl.
    rewrite lookup_insert_ne by done.
    by destruct (collection self !! hash_code key).
  - by rewrite lookup_insert_ne.
Qed.

Lemma entry_remove_eq key self self' :
  remove key self = inr (tt, self') → entry self' key = None.
Proof.
  rewrite remove_eq. intros [= <-]. unfold entry.
  destruct (collection self !! hash_code key) as [b|] eqn:Hb.
  - case_decide as Hk; simpl.
    + rewrite lookup_insert_eq. simpl. apply lookup_delete_eq.
    + rewrite Hb. simpl. by apply eq_None_not_Some.
  - by rewrite Hb.
Qed.

Lemma entry_remove_ne key key' self self' :
  key' ≠ key →
  remove key self = inr (tt, self') → entry self' key' = entry self key'.
Proof.
  intros Hne. rewrite remove_eq. intros [= <-]. unfold entry.
  destruct (collection self !! hash_code key) as [b|] eqn:Hb; [|done].
  case_decide; [|done]. simpl.
  destruct (decide (hash_code key = hash_code key')) as [Hh|Hh].
  - rewrite <- Hh, lookup_insert_eq, Hb. simpl. by apply lookup_delete_ne.
  - by rewrite lookup_insert_ne.
Qed.

Lemma remove_noop_when_absent self key :
  absent self key → remove key self = inr (tt, self).
Proof.
  intros Habs%absent_entry. rewrite remove_eq. unfold entry in Habs.
  destruct (collection self !! hash_code key) as [b|]; [|done].
  simpl in Habs. rewrite decide_False; [done|].
  rewrite Habs. by intros [? ?].
Qed.

(** A bucket lists a stored key once. *)
Lemma entries_for_lookup key value (b : gmap str (object V)) :
  b !! key = Some value → entries_for key b = [(key, value)].
Proof.
  intros Hb. unfold entries_for.
  assert (NoDup (filter (λ kv : str * object V, kv.1 = key) (map_to_list b)))
    as Hnd by apply NoDup_filter, NoDup_map_to_list.
  assert (∀ kv, kv ∈ filter (λ kv : str * object V, kv.1 = key) (map_to_list b)
                ↔ kv = (key, value)) as Hin.
  { intros [k v]. rewrite list_elem_of_filter, elem_of_map_to_list. simpl.
    split.
    - intros [-> Hv]. congruence.
    - intros [= -> ->]. done. }
  destruct (filter _ (map_to_list b)) as [|kv1 l].
  - exfalso. eapply not_elem_of_nil, Hin. done.
  - assert (kv1 = (key, value)) as E1 by (apply Hin; left).
    destruct l as [|kv2 l]; [by rewrite E1|].
    assert (kv2 = (key, value)) as E2 by (apply Hin; right; left).
    apply NoDup_cons_1_1 in Hnd. rewrite E1, E2 in Hnd.
    exfalso. apply Hnd. left.
Qed.

End Entries.

(** ** The hash function *)
Section Hash.
Context {V : Type}.
Implicit Types (self : HashTable V) (key : str).

(** The accumulator of the loop is carried through unchanged. *)
Lemma hash_loop_acc key (acc : Z) :
  fold_left (λ hash c, hash + ord c) key acc = acc + codepoint_sum key.
Proof.
  revert acc. induction key as [|c key IH]; intros acc; simpl.
  - lia.
  - rewrite IH. lia.
Qed.

Lemma hash_code_sum key : hash_code key = codepoint_sum key.
Proof. unfold hash_code. rewrite hash_loop_acc. lia. Qed.

(** Anagrams collide: the code of a concatenation does not depend on the
    order of its parts. *)
Lemma hash_code_app (k1 k2 : str) :
  hash_code (k1 ++ k2) = hash_code k1 + hash_code k2.
Proof.
  rewrite !hash_code_sum. unfold codepoint_sum.
  induction k1 as [|c k1 IH]; simpl in *; lia.
Qed.

Lemma hash_code_app_comm (k1 k2 : str) :
  hash_code (k1 ++ k2) = hash_code (k2 ++ k1).
Proof. rewrite !hash_code_app. lia. Qed.

(** C2: for every string key, [hash(key)] returns the sum of the code
    points of the characters of the key and leaves the table as it was;
    the empty string hashes to 0; and the result is the same integer
    whichever table the method is called on, so that two calls on one
    string always agree. *)
Theorem hash_codepoint_sum key self :
  hash key self = inr (codepoint_sum key, self)
  ∧ hash [] self = inr (0, self)
  ∧ ∀ self', ∃ n : Z,
      hash key self = inr (n, self) ∧ hash key self' = inr (n, self').
Proof.
  rewrite !hash_eq, hash_code_sum. repeat split.
  intros self'. exists (codepoint_sum key).
  by rewrite !hash_eq, hash_code_sum.
Qed.

End Hash.

(** ** Insertion, retrieval and removal *)
Section Operations.
Context {V : Type}.
Implicit Types (self : HashTable V) (key : str) (value : object V).

(** C1: for every key (the empty string included), every value ([None]
    included) and every table, [add(k, v)] returns without raising and
    an immediately following [lookup(k)] returns [v]. *)
Theorem add_then_lookup key value self :
  ∃ self', add key value self = inr (tt, self')
           ∧ lookup key self' = inr (value, self')
           ∧ (add key value;; lookup key) self = inr (value, self').
Proof.
  destruct (add_total key value self) as [self' Hadd]. exists self'.
  assert (lookup key self' = inr (value, self')) as Hl.
  { by rewrite lookup_entry, (entry_add_eq _ _ _ _ Hadd). }
  split_and!; [done..|].
  unfold mbind, M_bind, bind. by rewrite Hadd.
Qed.

(** C6: on a freshly constructed table [lookup(k)] returns [None] for
    every key, and on any table it returns [None], changing nothing,
    whenever no bucket exists under [hash(k)] or the bucket there does
    not contain [k]. *)
Theorem lookup_absent self key :
  lookup key (init (V:=V)) = inr (PyNone, init)
  ∧ (absent self key → lookup key self = inr (PyNone, self)).
Proof.
  split.
  - by rewrite lookup_entry.
  - intros Habs%absent_entry. by rewrite lookup_entry, Habs.
Qed.

(** C7: [remove(k)] returns without raising on every table and every
    key, and when [k] is not present (no bucket under [hash(k)], or a
    bucket that lacks [k]) the table it leaves is the table it found. *)
Theorem remove_absent self key :
  (∃ self', remove key self = inr (tt, self'))
  ∧ (absent self key → remove key self = inr (tt, self)).
Proof. split; [apply remove_total | apply remove_noop_when_absent]. Qed.

(** C8: for every table and key, the table left by a first [remove(k)]
    is left unchanged by a second one, so that two calls in a row have
    the effect of one. *)
Theorem remove_idempotent self key :
  ∃ self', remove key self = inr (tt, self')
           ∧ remove key self' = inr (tt, self')
           ∧ (remove key;; remove key) self = remove key self.
Proof.
  destruct (remove_total self key) as [self' Hr]. exists self'.
  assert (remove key self' = inr (tt, self')) as Hr'.
  { by eapply remove_noop_when_absent, absent_entry, entry_remove_eq. }
  split_and!; [done..|].
  unfold mbind, M_bind, bind. by rewrite Hr, Hr'.
Qed.

(** C10: for every table, key [k], value [v] and key [k'] other than
    [k], whether or not the two keys share a hash code, [lookup(k')]
    returns after [add(k, v)] what it returned before. *)
Theorem add_preserves_other_lookup self key value key' :
  key' ≠ key →
  ∃ self' r, add key value self = inr (tt, self')
             ∧ lookup key' self = inr (r, self)
             ∧ lookup key' self' = inr (r, self').
Proof.
  intros Hne. destruct (add_total key value self) as [self' Ha].
  exists self', (default PyNone (entry self key')).
  rewrite !lookup_entry, (entry_add_ne _ _ _ _ _ Hne Ha). done.
Qed.

(** C4: for two distinct keys with the same hash code (such as ["ab"]
    and ["ba"]), after [add(k1, v1); add(k2, v2)] the two lookups return
    [v1] and [v2]; after a following [remove(k1)], [lookup(k2)] still
    returns [v2] and [lookup(k1)] returns [None].  The two entries sit side
    by side in the one bucket stored under the shared hash code. *)
Theorem collision_independence self (k1 k2 : str) (v1 v2 : object V) :
  k1 ≠ k2 →
  hash_code k1 = hash_code k2 →
  ∃ s1 s2 s3,
    add k1 v1 self = inr (tt, s1)
    ∧ add k2 v2 s1 = inr (tt, s2)
    ∧ lookup k1 s2 = inr (v1, s2)
    ∧ lookup k2 s2 = inr (v2, s2)
    ∧ remove k1 s2 = inr (tt, s3)
    ∧ lookup k2 s3 = inr (v2, s3)
    ∧ lookup k1 s3 = inr (PyNone, s3)
    ∧ ∃ b, collection s2 !! hash_code k1 = Some b
           ∧ b !! k1 = Some v1 ∧ b !! k2 = Some v2.
Proof.
  intros Hne Hh.
  destruct (add_total k1 v1 self) as [s1 H1].
  destruct (add_total k2 v2 s1) as [s2 H2].
  destruct (remove_total s2 k1) as [s3 H3].
  exists s1, s2, s3. rewrite !lookup_entry.
  pose proof (entry_add_eq _ _ _ _ H2) as E2.
  pose proof (entry_add_ne k2 k1 _ _ _ Hne H2) as E1.
  rewrite (entry_add_eq _ _ _ _ H1) in E1.
  rewrite (entry_remove_eq _ _ _ H3).
  rewrite (entry_remove_ne k1 k2 _ _ (not_eq_sym Hne) H3).
  rewrite E1, E2. split_and!; [done..|].
  unfold entry in E1, E2. rewrite <- Hh in E2.
  destruct (collection s2 !! hash_code k1) as [b|]; [|done].
  by exists b.
Qed.

(** C5: for every table, key and values [v1], [v2], after
    [add(k, v1); add(k, v2)] a [lookup(k)] returns [v2]; the bucket under
    [hash(k)] holds exactly one entry for [k], namely [(k, v2)], and has
    the size it had after the first [add]. *)
Theorem add_overwrites self key (v1 v2 : object V) :
  ∃ s1 s2 b1 b2,
    add key v1 self = inr (tt, s1)
    ∧ add key v2 s1 = inr (tt, s2)
    ∧ lookup key s2 = inr (v2, s2)
    ∧ collection s1 !! hash_code key = Some b1
    ∧ collection s2 !! hash_code key = Some b2
    ∧ entries_for key b2 = [(key, v2)]
    ∧ size b2 = size b1.
Proof.
  set (h := hash_code key).
  set (b := bucket_at h self).
  set (s1 := {| collection := <[h := <[key := v1]> b]> (collection self) |}).
  set (s2 := {| collection := <[h := <[key := v2]> b]> (collection self) |}).
  assert (add key v1 self = inr (tt, s1)) as H1 by apply add_eq.
  assert (add key v2 s1 = inr (tt, s2)) as H2.
  { rewrite add_eq. unfold bucket_at, s1, s2. fold h. simpl.
    rewrite lookup_insert_eq. simpl.
    by rewrite !insert_insert_eq. }
  exists s1, s2, (<[key := v1]> b), (<[key := v2]> b).
  split_and!; [done|done| |..].
  - by rewrite lookup_entry, (entry_add_eq _ _ _ _ H2).
  - apply lookup_insert_eq.
  - apply lookup_insert_eq.
  - apply entries_for_lookup, lookup_insert_eq.
  - rewrite <- (insert_insert_eq b key v2 v1) at 1.
    apply map_size_insert_Some. by rewrite lookup_insert_eq.
Qed.

End Operations.

(** ** Where keys and buckets live *)
Section Placement.
Context {V : Type}.
Implicit Types (self : HashTable V) (key : str) (value : object V) (h : Z).

(** The invariant says no more than: a key is found only under its own
    hash code. *)
Lemma one_bucket_per_key_alt self :
  one_bucket_per_key self ↔ ∀ h key, holds self h key → h = hash_code key.
Proof.
  split.
  - intros Hinv h key Hh. apply (Hinv key); [by exists h | done].
  - intros Hp key [h Hh]. split; [|by intros h'; apply Hp].
    by rewrite <- (Hp h key Hh).
Qed.

Lemma well_placed_alt self :
  well_placed self ↔ ∀ h key, holds self h key → h = hash_code key.
Proof.
  unfold well_placed, holds. split.
  - intros Hwp h key (b & Hb & [v Hv]).
    symmetry. exact (Hwp h b Hb key v Hv).
  - intros Hp h b Hb key v Hv. symmetry. apply Hp. exists b. eauto.
Qed.

Lemma well_placed_one_bucket self :
  well_placed self ↔ one_bucket_per_key self.
Proof. by rewrite well_placed_alt, one_bucket_per_key_alt. Qed.

Lemma holds_add key value self self' h key' :
  add key value self = inr (tt, self') →
  holds self' h key' →
  (h = hash_code key ∧ key' = key) ∨ holds self h key'.
Proof.
  rewrite add_eq. intros [= <-] (b & Hb & Hk). simpl in Hb.
  destruct (decide (hash_code key = h)) as [<-|Hne].
  - rewrite lookup_insert_eq in Hb. injection Hb as <-.
    destruct (decide (key = key')) as [<-|Hk']; [by left|].
    right. rewrite lookup_insert_ne in Hk by done.
    unfold bucket_at in Hk.
    destruct (collection self !! hash_code key) as [b0|] eqn:Hb0.
    + by exists b0.
    + simpl in Hk. rewrite lookup_empty in Hk. by destruct Hk.
  - rewrite lookup_insert_ne in Hb by done. right. by exists b.
Qed.

Lemma holds_remove key self self' h key' :
  remove key self = inr (tt, self') →
  holds self' h key' → holds self h key'.
Proof.
  rewrite remove_eq. intros [= <-].
  destruct (collection self !! hash_code key) as [b0|] eqn:Hb0; [|done].
  case_decide; [|done]. intros (b & Hb & Hk). simpl in Hb.
  destruct (decide (hash_code key = h)) as [<-|Hne].
  - rewrite lookup_insert_eq in Hb. injection Hb as <-.
    exists b0. split; [done|].
    destruct (decide (key = key')) as [<-|Hk'].
    + rewrite lookup_delete_eq in Hk. by destruct Hk.
    + by rewrite lookup_delete_ne in Hk.
  - rewrite lookup_insert_ne in Hb by done. by exists b.
Qed.

Lemma one_bucket_init : one_bucket_per_key (init (V:=V)).
Proof.
  apply one_bucket_per_key_alt. intros h key (b & Hb & _).
  simpl in Hb. by rewrite lookup_empty in Hb.
Qed.

Lemma one_bucket_add key value self self' :
  one_bucket_per_key self →
  add key value self = inr (tt, self') → one_bucket_per_key self'.
Proof.
  rewrite !one_bucket_per_key_alt. intros Hinv Ha h key' Hh.
  destruct (holds_add _ _ _ _ _ _ Ha Hh) as [[-> ->]|Hold]; [done|].
  by apply Hinv.
Qed.

Lemma one_bucket_remove key self self' :
  one_bucket_per_key self →
  remove key self = inr (tt, self') → one_bucket_per_key self'.
Proof.
  rewrite !one_bucket_per_key_alt. intros Hinv Hr h key' Hh.
  apply Hinv. by eapply holds_remove.
Qed.

Lemma one_bucket_lookup key self r self' :
  one_bucket_per_key self →
  lookup key self = inr (r, self') → one_bucket_per_key self'.
Proof. rewrite lookup_entry. by intros Hinv [= _ <-]. Qed.

(** C3: on the fresh table every stored key appears in exactly one bucket,
    the one stored under [hash(key)]; each of [add], [remove] and [lookup]
    returns without raising and leaves a table with that property when it
    was given one; hence every table built from the fresh one by these
    methods has it. *)
Theorem one_bucket_invariant self :
  one_bucket_per_key (init (V:=V))
  ∧ (one_bucket_per_key self →
       (∀ key value, ∃ self',
           add key value self = inr (tt, self') ∧ one_bucket_per_key self')
       ∧ (∀ key, ∃ self',
           remove key self = inr (tt, self') ∧ one_bucket_per_key self')
       ∧ (∀ key, ∃ r self',
           lookup key self = inr (r, self') ∧ one_bucket_per_key self'))
  ∧ (reachable self → one_bucket_per_key self).
Proof.
  split_and!.
  - apply one_bucket_init.
  - intros Hinv. split_and!.
    + intros key value. destruct (add_total key value self) as [self' Ha].
      exists self'. eauto using one_bucket_add.
    + intros key. destruct (remove_total self key) as [self' Hr].
      exists self'. eauto using one_bucket_remove.
    + intros key. destruct (lookup_total self key) as [r Hl].
      exists r, self. eauto.
  - induction 1;
      eauto using one_bucket_init, one_bucket_add, one_bucket_remove,
                  one_bucket_lookup.
Qed.

Lemma has_bucket_add key value self self' h :
  has_bucket self h →
  add key value self = inr (tt, self') → has_bucket self' h.
Proof.
  unfold has_bucket. intros Hb. rewrite add_eq. intros [= <-]. simpl.
  rewrite lookup_insert. by case_decide.
Qed.

Lemma has_bucket_remove key self self' h :
  has_bucket self h →
  remove key self = inr (tt, self') → has_bucket self' h.
Proof.
  unfold has_bucket. intros Hb. rewrite remove_eq. intros [= <-].
  destruct (collection self !! hash_code key) as [b0|]; [|done].
  case_decide; [|done]. simpl. rewrite lookup_insert. by case_decide.
Qed.

(** C9: a bucket that exists under a hash code still exists under it after
    any [add], [remove] or [lookup], none of which raises; and a
    [remove(k)] that deletes the only entry of the bucket under [hash(k)]
    leaves the empty bucket stored under that hash code. *)
Theorem buckets_persist self h :
  (has_bucket self h →
     (∀ key value, ∃ self',
         add key value self = inr (tt, self') ∧ has_bucket self' h)
     ∧ (∀ key, ∃ self',
         remove key self = inr (tt, self') ∧ has_bucket self' h)
     ∧ (∀ key, ∃ r self',
         lookup key self = inr (r, self') ∧ has_bucket self' h))
  ∧ (∀ key b,
       collection self !! hash_code key = Some b →
       is_Some (b !! key) → size b = 1%nat →
       ∃ self', remove key self = inr (tt, self')
                ∧ collection self' !! hash_code key = Some ∅).
Proof.
  split.
  - intros Hb. split_and!.
    + intros key value. destruct (add_total key value self) as [self' Ha].
      exists self'. eauto using has_bucket_add.
    + intros key. destruct (remove_total self key) as [self' Hr].
      exists self'. eauto using has_bucket_remove.
    + intros key. destruct (lookup_total self key) as [r Hl].
      exists r, self. eauto.
  - intros key b Hb Hk Hsize. rewrite remove_eq, Hb.
    rewrite decide_True by done. eexists. split; [done|]. simpl.
    rewrite lookup_insert_eq. f_equal.
    apply map_size_empty_iff.
    pose proof (map_size_delete_Some key b Hk) as Hd. lia.
Qed.

End Placement.

(** ** Further properties of the hash function *)
Section HashMore.
Context {V : Type}.
Implicit Types (self : HashTable V) (key : str).

Lemma codepoint_sum_perm (k1 k2 : str) :
  k1 ≡ₚ k2 → codepoint_sum k1 = codepoint_sum k2.
Proof.
  unfold codepoint_sum.
  induction 1 as [|c k1 k2 _ IH|c1 c2 k|k1 k2 k3 _ IH1 _ IH2]; simpl; lia.
Qed.

Lemma codepoint_sum_bounds key (bound : Z) :
  Forall (λ c, ord c ≤ bound) key →
  0 ≤ codepoint_sum key ≤ bound * Z.of_nat (length key).
Proof.
  unfold codepoint_sum, ord.
  induction 1 as [|c key Hc _ IH]; simpl; [lia|].
  unfold ord in Hc. lia.
Qed.

Lemma codepoint_sum_nonneg key : 0 ≤ codepoint_sum key.
Proof.
  unfold codepoint_sum, ord. induction key as [|c key IH]; simpl; lia.
Qed.

(** X1: [hash] does not see the order of the characters: two keys that are
    rearrangements of one another (anagrams) get the same hash code, on any
    table. *)
Theorem hash_anagrams (k1 k2 : str) self :
  k1 ≡ₚ k2 → hash k1 self = hash k2 self.
Proof.
  intros Hp. rewrite !hash_eq, !hash_code_sum.
  by rewrite (codepoint_sum_perm _ _ Hp).
Qed.

(** X2: the hash code of a concatenation is the sum of the hash codes of
    its parts; a hash code is never
    negative, and a key hashes at least as high as any of its prefixes. *)
Theorem hash_concat (k1 k2 : str) self :
  hash (k1 ++ k2) self = inr (hash_code k1 + hash_code k2, self)
  ∧ 0 ≤ hash_code k2
  ∧ hash_code k1 ≤ hash_code (k1 ++ k2).
Proof.
  pose proof (codepoint_sum_nonneg k2) as Hnn.
  rewrite <- hash_code_sum in Hnn.
  rewrite hash_eq, hash_code_app. split_and!; [done|done|lia].
Qed.

(** X3: when every character of the key has a code point of at most
    [bound] (127 for an ASCII key, 0x10FFFF for any Python string), the hash
    code lies between 0 and [bound] times the length of the key. *)
Theorem hash_bounds key (bound : Z) self :
  Forall (λ c, ord c ≤ bound) key →
  ∃ n, hash key self = inr (n, self)
       ∧ 0 ≤ n ≤ bound * Z.of_nat (length key).
Proof.
  intros Hb. exists (hash_code key). split; [apply hash_eq|].
  rewrite hash_code_sum. by apply codepoint_sum_bounds.
Qed.

End HashMore.

(** ** Tables as values *)
Section TableFacts.
Context {V : Type}.
Implicit Types (self : HashTable V) (key : str) (value : object V) (h : Z).

Lemma table_eq self1 self2 :
  collection self1 = collection self2 → self1 = self2.
Proof. destruct self1, self2. simpl. by intros ->. Qed.

(** [remove] edits the bucket under the hash code in place, if it is
    there. *)
Lemma remove_alter key self :
  remove key self =
  inr (tt, {| collection :=
                alter (delete key) (hash_code key) (collection self) |}).
Proof.
  rewrite remove_eq. do 2 f_equal.
  destruct (collection self !! hash_code key) as [b|] eqn:Hb.
  - case_decide as Hk.
    + f_equal. apply map_eq. intros h.
      rewrite lookup_alter, lookup_insert. case_decide; [|done].
      by rewrite Hb.
    + apply table_eq. simpl. symmetry. apply alter_id.
      intros b' Hb'. rewrite Hb in Hb'. injection Hb' as <-.
      apply delete_id. by apply eq_None_not_Some.
  - apply table_eq. simpl. symmetry. by apply alter_id'.
Qed.

Lemma run_add_add k1 v1 k2 v2 self :
  (add k1 v1;; add k2 v2) self =
  inr (tt, {| collection :=
    <[hash_code k2 :=
        <[k2 := v2]>
          (default ∅ (<[hash_code k1 :=
                          <[k1 := v1]> (bucket_at (hash_code k1) self)]>
                        (collection self) !! hash_code k2))]>
      (<[hash_code k1 := <[k1 := v1]> (bucket_at (hash_code k1) self)]>
         (collection self)) |}).
Proof.
  unfold mbind, M_bind, bind. rewrite add_eq. simpl. by rewrite add_eq.
Qed.

Lemma run_remove_remove k1 k2 self :
  (remove k1;; remove k2) self =
  inr (tt, {| collection :=
                alter (delete k2) (hash_code k2)
                  (alter (delete k1) (hash_code k1) (collection self)) |}).
Proof.
  unfold mbind, M_bind, bind. rewrite remove_alter. simpl.
  by rewrite remove_alter.
Qed.

Lemma run_add_remove key value key' self :
  (add key value;; remove key') self =
  inr (tt, {| collection :=
                alter (delete key') (hash_code key')
                  (<[hash_code key :=
                       <[key := value]> (bucket_at (hash_code key) self)]>
                     (collection self)) |}).
Proof.
  unfold mbind, M_bind, bind. rewrite add_eq. simpl. by rewrite remove_alter.
Qed.

(** X4: a second [add] of the same key leaves no trace of the first:
    [add(k, v1); add(k, v2)] leaves the very table that [add(k, v2)] alone
    leaves. *)
Theorem add_add_same key (v1 v2 : object V) self :
  (add key v1;; add key v2) self = add key v2 self.
Proof.
  rewrite run_add_add, add_eq. do 3 f_equal.
  rewrite lookup_insert_eq. simpl.
  by rewrite !insert_insert_eq.
Qed.

(** X5: insertions under different keys can be swapped: for [k1] other
    than [k2], [add(k1, v1); add(k2, v2)] and [add(k2, v2); add(k1, v1)]
    leave equal tables (as dictionaries compare, regardless of insertion
    order), whether or not the keys collide. *)
Theorem add_add_swap (k1 k2 : str) (v1 v2 : object V) self :
  k1 ≠ k2 →
  (add k1 v1;; add k2 v2) self = (add k2 v2;; add k1 v1) self.
Proof.
  intros Hne. rewrite !run_add_add. do 3 f_equal. unfold bucket_at.
  destruct (decide (hash_code k1 = hash_code k2)) as [Hh|Hh].
  - rewrite <- !Hh, !lookup_insert_eq, !insert_insert_eq. simpl.
    f_equal. by apply insert_insert_ne.
  - rewrite !lookup_insert_ne by done.
    by apply insert_insert_ne.
Qed.

(** X6: removals can be swapped: [remove(k1); remove(k2)] and
    [remove(k2); remove(k1)] leave the same table, for any two keys. *)
Theorem remove_remove_swap (k1 k2 : str) self :
  (remove k1;; remove k2) self = (remove k2;; remove k1) self.
Proof.
  rewrite !run_remove_remove. do 3 f_equal.
  apply map_eq. intros h.
  destruct (decide (hash_code k1 = h)) as [E1|E1],
           (decide (hash_code k2 = h)) as [E2|E2].
  - rewrite E1, E2, !lookup_alter_eq.
    destruct (collection self !! h) as [b|]; [|done].
    simpl. f_equal. apply map_eq. intros k. rewrite !lookup_delete.
    by repeat case_decide.
  - rewrite (lookup_alter_ne _ _ (hash_code k2) h) by done.
    rewrite E1, !lookup_alter_eq.
    by rewrite (lookup_alter_ne _ _ (hash_code k2) h) by done.
  - rewrite (lookup_alter_ne _ _ (hash_code k1) h) by done.
    rewrite E2, !lookup_alter_eq.
    by rewrite (lookup_alter_ne _ _ (hash_code k1) h) by done.
  - by rewrite !lookup_alter_ne by done.
Qed.

(** X7: adding again what is already stored changes nothing: when the
    bucket under [hash(k)] holds [v] for [k], [add(k, v)] leaves the table
    it found. *)
Theorem add_stored_noop key value self (b : gmap str (object V)) :
  collection self !! hash_code key = Some b →
  b !! key = Some value →
  add key value self = inr (tt, self).
Proof.
  intros Hb Hk. rewrite add_eq. do 2 f_equal. apply table_eq. simpl.
  unfold bucket_at. rewrite Hb. simpl.
  rewrite (insert_id b) by done. by apply insert_id.
Qed.

(** X8: inserting a key that is not present and removing it again: every
    bucket comes back as it was, except that a bucket created by the [add]
    stays behind, empty.  When the bucket under [hash(k)] was there before,
    the table is back to what it was. *)
Theorem add_remove_absent key value self :
  absent self key →
  (add key value;; remove key) self =
  inr (tt, {| collection :=
                <[hash_code key := bucket_at (hash_code key) self]>
                  (collection self) |})
  ∧ (has_bucket self (hash_code key) →
     (add key value;; remove key) self = inr (tt, self)).
Proof.
  intros Habs.
  assert (bucket_at (hash_code key) self !! key = None) as Hk.
  { unfold bucket_at. destruct Habs as [->|(b & -> & Hk)]; [|done].
    apply lookup_empty. }
  assert ((add key value;; remove key) self =
          inr (tt, {| collection :=
                        <[hash_code key := bucket_at (hash_code key) self]>
                          (collection self) |})) as Hrun.
  { rewrite run_add_remove. do 3 f_equal.
    apply map_eq. intros h.
    destruct (decide (hash_code key = h)) as [<-|Hne].
    - rewrite lookup_alter_eq, !lookup_insert_eq. simpl.
      by rewrite delete_insert_id.
    - by rewrite lookup_alter_ne, !lookup_insert_ne by done. }
  split; [done|].
  intros [b Hb]. rewrite Hrun. do 2 f_equal. apply table_eq. simpl.
  unfold bucket_at. rewrite Hb. simpl. by apply insert_id.
Qed.

End TableFacts.

(** ** Lookups after removals, and what a lookup can tell *)
Section LookupFacts.
Context {V : Type}.
Implicit Types (self : HashTable V) (key : str) (value : object V) (h : Z).

(** X9: after [remove(k)], on any table, [lookup(k)] returns [None]. *)
Theorem remove_then_lookup key self :
  ∃ self', remove key self = inr (tt, self')
           ∧ lookup key self' = inr (PyNone, self')
           ∧ (remove key;; lookup key) self = inr (PyNone, self').
Proof.
  destruct (remove_total self key) as [self' Hr]. exists self'.
  assert (lookup key self' = inr (PyNone, self')) as Hl.
  { by rewrite lookup_entry, (entry_remove_eq _ _ _ Hr). }
  split_and!; [done..|].
  unfold mbind, M_bind, bind. by rewrite Hr.
Qed.

(** X10: for every table and keys [k'] other than [k], colliding or not,
    [lookup(k')] returns after [remove(k)] what it returned before. *)
Theorem remove_preserves_other_lookup self key key' :
  key' ≠ key →
  ∃ self' r, remove key self = inr (tt, self')
             ∧ lookup key' self = inr (r, self)
             ∧ lookup key' self' = inr (r, self').
Proof.
  intros Hne. destruct (remove_total self key) as [self' Hr].
  exists self', (default PyNone (entry self key')).
  by rewrite !lookup_entry, (entry_remove_ne _ _ _ _ Hne Hr).
Qed.

Lemma entry_Some self key value :
  entry self key = Some value
  ↔ ∃ b, collection self !! hash_code key = Some b ∧ b !! key = Some value.
Proof.
  unfold entry. destruct (collection self !! hash_code key) as [b|]; simpl.
  - split; [by exists b|]. by intros (b' & [= <-] & ?).
  - split; [done|]. by intros (? & ? & ?).
Qed.

(** X11: what the result of a lookup tells.  [lookup(k)] returns an object
    other than [None] exactly when the bucket under [hash(k)] holds that
    object for [k]; it returns [None] exactly when [k] is not present or is
    stored with the value [None], two cases the caller cannot tell apart. *)
Theorem lookup_result self key :
  (∀ v : V,
     lookup key self = inr (PyObj v, self)
     ↔ ∃ b, collection self !! hash_code key = Some b
            ∧ b !! key = Some (PyObj v))
  ∧ (lookup key self = inr (PyNone, self)
     ↔ absent self key
       ∨ ∃ b, collection self !! hash_code key = Some b
              ∧ b !! key = Some PyNone).
Proof.
  rewrite lookup_entry, absent_entry, <- entry_Some. split.
  - intros v. rewrite <- entry_Some.
    destruct (entry self key) as [[|v']|]; simpl; split;
      intros [=]; subst; done.
  - destruct (entry self key) as [[|v']|]; simpl; split;
      try (intros [[=]|[=]]); try (intros [=]); auto.
Qed.

End LookupFacts.

(** ** Which buckets a call touches *)
Section Buckets.
Context {V : Type}.
Implicit Types (self : HashTable V) (key : str) (value : object V) (h : Z).

(** X12: [add(k, v)] leaves buckets under exactly the hash codes there were
    and under [hash(k)]; [remove(k)] leaves buckets under exactly the hash
    codes there were: it neither creates nor drops one. *)
Theorem bucket_codes_after key value self :
  ∃ s1 s2,
    add key value self = inr (tt, s1)
    ∧ bucket_codes s1 = {[ hash_code key ]} ∪ bucket_codes self
    ∧ remove key self = inr (tt, s2)
    ∧ bucket_codes s2 = bucket_codes self.
Proof.
  eexists _, _. rewrite add_eq, remove_alter. unfold bucket_codes. simpl.
  split_and!; [done| |done|].
  - apply dom_insert_L.
  - apply dom_alter_L.
Qed.

(** X13: [add(k, v)] and [remove(k)] leave every bucket stored under a hash
    code other than [hash(k)] exactly as it was. *)
Theorem other_buckets_untouched key value self h :
  h ≠ hash_code key →
  ∃ s1 s2,
    add key value self = inr (tt, s1)
    ∧ collection s1 !! h = collection self !! h
    ∧ remove key self = inr (tt, s2)
    ∧ collection s2 !! h = collection self !! h.
Proof.
  intros Hne. eexists _, _. rewrite add_eq, remove_alter. simpl.
  split_and!; [done| |done|].
  - by apply lookup_insert_ne.
  - by apply lookup_alter_ne.
Qed.

End Buckets.

(** ** The table against a plain dictionary *)
Section Refinement.
Context {V : Type}.
Implicit Types (self : HashTable V) (key : str) (value : object V).
Implicit Types (m : gmap str (object V)) (c : call V) (cs : list (call V)).

Lemma represents_init : represents (init (V:=V)) ∅.
Proof. intros key. unfold entry. simpl. by rewrite !lookup_empty. Qed.

Lemma represents_add key value self self' m :
  represents self m →
  add key value self = inr (tt, self') → represents self' (<[key := value]> m).
Proof.
  intros Hm Ha key'. destruct (decide (key' = key)) as [->|Hne].
  - by rewrite (entry_add_eq _ _ _ _ Ha), lookup_insert_eq.
  - by rewrite (entry_add_ne _ _ _ _ _ Hne Ha), lookup_insert_ne.
Qed.

Lemma represents_remove key self self' m :
  represents self m →
  remove key self = inr (tt, self') → represents self' (delete key m).
Proof.
  intros Hm Hr key'. destruct (decide (key' = key)) as [->|Hne].
  - by rewrite (entry_remove_eq _ _ _ Hr), lookup_delete_eq.
  - by rewrite (entry_remove_ne _ _ _ _ Hne Hr), lookup_delete_ne.
Qed.

Lemma represents_lookup key self m :
  represents self m →
  lookup key self = inr (default PyNone (m !! key), self).
Proof. intros Hm. by rewrite lookup_entry, Hm. Qed.

Lemma perform_represents c self m :
  represents self m →
  ∃ r self', perform c self = inr (r, self')
             ∧ represents self' (dict_call m c).
Proof.
  intros Hm. destruct c as [key value|key|key]; simpl.
  - destruct (add_total key value self) as [self' Ha].
    exists PyNone, self'. split; [|by eapply represents_add].
    unfold mbind, M_bind, bind. by rewrite Ha.
  - destruct (remove_total self key) as [self' Hr].
    exists PyNone, self'. split; [|by eapply represents_remove].
    unfold mbind, M_bind, bind. by rewrite Hr.
  - eexists _, self. split; [by apply represents_lookup|done].
Qed.

Lemma perform_all_represents cs self m :
  represents self m →
  ∃ self', perform_all cs self = inr (tt, self')
           ∧ represents self' (dict_calls cs m).
Proof.
  revert self m. induction cs as [|c cs IH]; intros self m Hm; simpl.
  - by exists self.
  - destruct (perform_represents c self m Hm) as (r & self1 & Hc & Hm1).
    destruct (IH self1 _ Hm1) as (self' & Hcs & Hm').
    exists self'. split; [|done].
    unfold mbind, M_bind, bind. by rewrite Hc.
Qed.

Lemma perform_other c key self :
  call_key c ≠ key →
  ∃ r self', perform c self = inr (r, self')
             ∧ entry self' key = entry self key.
Proof.
  intros Hne. destruct c as [k v|k|k]; simpl in *.
  - destruct (add_total k v self) as [self' Ha].
    exists PyNone, self'. split; [|by eapply entry_add_ne].
    unfold mbind, M_bind, bind. by rewrite Ha.
  - destruct (remove_total self k) as [self' Hr].
    exists PyNone, self'. split; [|by eapply entry_remove_ne].
    unfold mbind, M_bind, bind. by rewrite Hr.
  - destruct (lookup_total self k) as [r Hl]. by exists r, self.
Qed.

Lemma perform_all_other cs key self :
  Forall (λ c, call_key c ≠ key) cs →
  ∃ self', perform_all cs self = inr (tt, self')
           ∧ entry self' key = entry self key.
Proof.
  intros Hcs. revert self.
  induction Hcs as [|c cs Hc _ IH]; intros self; simpl.
  - by exists self.
  - destruct (perform_other c key self Hc) as (r & self1 & Hp & He1).
    destruct (IH self1) as (self' & Hrun & He).
    exists self'. split; [|congruence].
    unfold mbind, M_bind, bind. by rewrite Hp.
Qed.

(** X14: the table behaves as a dictionary from keys to values.  The
    fresh table stands for the empty dictionary, and when a table stands
    for a dictionary [m] (each key's entry under its hash code is [m]'s
    entry), [add(k, v)] leaves a table that stands for [m] with
    [m[k] = v], [remove(k)] one that stands for [m] without [k], and
    [lookup(k)] returns [m[k]], or [None] when [m] has no [k]. *)
Theorem dictionary_refinement self m :
  represents (init (V:=V)) ∅
  ∧ (represents self m →
       (∀ key value, ∃ self',
           add key value self = inr (tt, self')
           ∧ represents self' (<[key := value]> m))
       ∧ (∀ key, ∃ self',
           remove key self = inr (tt, self')
           ∧ represents self' (delete key m))
       ∧ (∀ key, lookup key self = inr (default PyNone (m !! key), self))).
Proof.
  split; [apply represents_init|]. intros Hm. split_and!.
  - intros key value. destruct (add_total key value self) as [self' Ha].
    exists self'. eauto using represents_add.
  - intros key. destruct (remove_total self key) as [self' Hr].
    exists self'. eauto using represents_remove.
  - intros key. by apply represents_lookup.
Qed.

(** X15: any sequence of calls on a fresh table runs to its end without
    raising, and a lookup afterwards returns what the same calls made on a
    plain dictionary leave for the key, [None] if they leave nothing. *)
Theorem calls_as_dictionary cs key :
  ∃ self' : HashTable V,
    perform_all cs init = inr (tt, self')
    ∧ lookup key self' = inr (default PyNone (dict_calls cs ∅ !! key), self').
Proof.
  destruct (perform_all_represents cs init ∅ represents_init)
    as (self' & Hcs & Hm).
  exists self'. split; [done|]. by apply represents_lookup.
Qed.

(** X16: a stored value stays until its key is written or removed again:
    after [add(k, v)], any sequence of calls about other keys (colliding
    ones included) runs without raising and leaves [lookup(k)] returning
    [v]. *)
Theorem add_survives_other_calls key value cs self :
  Forall (λ c, call_key c ≠ key) cs →
  ∃ s1 s2, add key value self = inr (tt, s1)
           ∧ perform_all cs s1 = inr (tt, s2)
           ∧ lookup key s2 = inr (value, s2).
Proof.
  intros Hcs. destruct (add_total key value self) as [s1 Ha].
  destruct (perform_all_other cs key s1 Hcs) as (s2 & Hrun & He).
  exists s1, s2. split_and!; [done..|].
  by rewrite lookup_entry, He, (entry_add_eq _ _ _ _ Ha).
Qed.

End Refinement.

(** ** Worked instances

    The statements above that carry a premise, applied to tables holding
    integers. *)

Local Open Scope string_scope.

Lemma add_preserves_other_lookup_witness :
  py "ba" ≠ py "ab"
  ∧ ∃ self' r,
      add (py "ab") (PyObj 1) (init (V:=Z)) = inr (tt, self')
      ∧ lookup (py "ba") init = inr (r, init)
      ∧ lookup (py "ba") self' = inr (r, self').
Proof.
  assert (py "ba" ≠ py "ab") as Hne by (vm_compute; discriminate).
  split; [exact Hne|].
  exact (add_preserves_other_lookup init (py "ab") (PyObj 1) (py "ba") Hne).
Defined.

Lemma collision_independence_witness :
  py "ab" ≠ py "ba"
  ∧ hash_code (py "ab") = hash_code (py "ba")
  ∧ ∃ s1 s2 s3 : HashTable Z,
      add (py "ab") (PyObj 1) init = inr (tt, s1)
      ∧ add (py "ba") (PyObj 2) s1 = inr (tt, s2)
      ∧ lookup (py "ab") s2 = inr (PyObj 1, s2)
      ∧ lookup (py "ba") s2 = inr (PyObj 2, s2)
      ∧ remove (py "ab") s2 = inr (tt, s3)
      ∧ lookup (py "ba") s3 = inr (PyObj 2, s3)
      ∧ lookup (py "ab") s3 = inr (PyNone, s3)
      ∧ ∃ b, collection s2 !! hash_code (py "ab") = Some b
             ∧ b !! py "ab" = Some (PyObj 1) ∧ b !! py "ba" = Some (PyObj 2).
Proof.
  assert (py "ab" ≠ py "ba") as Hne by (vm_compute; discriminate).
  assert (hash_code (py "ab") = hash_code (py "ba")) as Hh by reflexivity.
  split; [exact Hne|]. split; [exact Hh|].
  exact (collision_independence init (py "ab") (py "ba")
           (PyObj 1) (PyObj 2) Hne Hh).
Defined.

Lemma lookup_absent_witness :
  absent {| collection := {[ 195 := {[ py "ab" := PyObj 1 ]} ]} |} (py "ba")
  ∧ lookup (py "ba") {| collection := {[ 195 := {[ py "ab" := PyObj 1 ]} ]} |}
    = inr (PyNone,
           {| collection := {[ 195 := {[ py "ab" := PyObj 1 ]} ]} |}).
Proof.
  assert (absent {| collection := {[ 195 := {[ py "ab" := PyObj 1 ]} ]} |}
                 (py "ba")) as Habs.
  { right. exists {[ py "ab" := PyObj 1 ]}. split; vm_compute; reflexivity. }
  split; [exact Habs|].
  exact (proj2 (lookup_absent _ (py "ba")) Habs).
Defined.

Lemma remove_absent_witness :
  absent {| collection := {[ 195 := {[ py "ab" := PyObj 1 ]} ]} |} (py "c")
  ∧ remove (py "c") {| collection := {[ 195 := {[ py "ab" := PyObj 1 ]} ]} |}
    = inr (tt, {| collection := {[ 195 := {[ py "ab" := PyObj 1 ]} ]} |}).
Proof.
  assert (absent {| collection := {[ 195 := {[ py "ab" := PyObj 1 ]} ]} |}
                 (py "c")) as Habs.
  { left. vm_compute. reflexivity. }
  split; [exact Habs|].
  exact (proj2 (remove_absent _ (py "c")) Habs).
Defined.

Lemma one_bucket_invariant_witness :
  one_bucket_per_key
    {| collection := {[ 195 := {[ py "ab" := PyObj 1 ]} ]} |}
  ∧ reachable {| collection := {[ 195 := {[ py "ab" := PyObj 1 ]} ]} |}
  ∧ ∃ self',
      add (py "ba") (PyObj 2)
          {| collection := {[ 195 := {[ py "ab" := PyObj 1 ]} ]} |}
      = inr (tt, self')
      ∧ one_bucket_per_key self'.
Proof.
  assert (one_bucket_per_key
            {| collection := {[ 195 := {[ py "ab" := PyObj 1%Z ]} ]} |})
    as Hinv.
  { apply well_placed_one_bucket.
    apply (bool_decide_unpack _). vm_compute. exact I. }
  assert (reachable {| collection := {[ 195 := {[ py "ab" := PyObj 1 ]} ]} |})
    as Hreach.
  { apply (reachable_add init (py "ab") (PyObj 1) _ reachable_init).
    vm_compute. reflexivity. }
  split; [exact Hinv|]. split; [exact Hreach|].
  exact (proj1 (proj1 (proj2 (one_bucket_invariant _)) Hinv)
           (py "ba") (PyObj 2)).
Defined.

Lemma buckets_persist_witness :
  has_bucket {| collection := {[ 97 := {[ py "a" := PyObj 1 ]} ]} |} 97
  ∧ (∃ self',
       remove (py "a") {| collection := {[ 97 := {[ py "a" := PyObj 1 ]} ]} |}
       = inr (tt, self')
       ∧ has_bucket self' 97)
  ∧ (∃ self',
       remove (py "a") {| collection := {[ 97 := {[ py "a" := PyObj 1 ]} ]} |}
       = inr (tt, self')
       ∧ collection self' !! hash_code (py "a") = Some ∅).
Proof.
  assert (has_bucket
            {| collection := {[ 97 := {[ py "a" := PyObj 1%Z ]} ]} |} 97)
    as Hb.
  { exists {[ py "a" := PyObj 1 ]}. vm_compute. reflexivity. }
  split; [exact Hb|]. split.
  - exact (proj1 (proj2 (proj1 (buckets_persist _ 97) Hb)) (py "a")).
  - apply (proj2 (buckets_persist _ 97) (py "a") {[ py "a" := PyObj 1 ]}).
    + vm_compute. reflexivity.
    + exists (PyObj 1). vm_compute. reflexivity.
    + vm_compute. reflexivity.
Defined.

Lemma hash_anagrams_witness :
  py "listen" ≡ₚ py "silent"
  ∧ hash (py "listen") (init (V:=Z)) = hash (py "silent") init.
Proof.
  assert (py "listen" ≡ₚ py "silent") as Hp.
  { apply (bool_decide_unpack _). vm_compute. exact I. }
  split; [exact Hp|].
  exact (hash_anagrams (py "listen") (py "silent") init Hp).
Defined.

Lemma hash_bounds_witness :
  Forall (λ c, ord c ≤ 127) (py "cat")
  ∧ ∃ n, hash (py "cat") (init (V:=Z)) = inr (n, init)
         ∧ 0 ≤ n ≤ 127 * Z.of_nat (length (py "cat")).
Proof.
  assert (Forall (λ c, ord c ≤ 127) (py "cat")) as Hb.
  { apply (bool_decide_unpack _). vm_compute. exact I. }
  split; [exact Hb|].
  exact (hash_bounds (py "cat") 127 init Hb).
Defined.

Lemma add_add_swap_witness :
  py "ab" ≠ py "ba"
  ∧ (add (py "ab") (PyObj 1);; add (py "ba") (PyObj 2)) (init (V:=Z))
    = (add (py "ba") (PyObj 2);; add (py "ab") (PyObj 1)) init.
Proof.
  assert (py "ab" ≠ py "ba") as Hne by (vm_compute; discriminate).
  split; [exact Hne|].
  exact (add_add_swap (py "ab") (py "ba") (PyObj 1) (PyObj 2) init Hne).
Defined.

Lemma add_stored_noop_witness :
  add (py "ab") (PyObj 1)
      {| collection := {[ 195 := {[ py "ab" := PyObj 1; py "ba" := @PyNone Z ]} ]} |}
  = inr (tt,
         {| collection :=
              {[ 195 := {[ py "ab" := PyObj 1; py "ba" := @PyNone Z ]} ]} |}).
Proof.
  apply (add_stored_noop (py "ab") (PyObj 1) _
           {[ py "ab" := PyObj 1; py "ba" := @PyNone Z ]}).
  - vm_compute. reflexivity.
  - vm_compute. reflexivity.
Defined.

Lemma add_remove_absent_witness :
  absent (init (V:=Z)) (py "a")
  ∧ (add (py "a") (PyObj 1);; remove (py "a")) init
    = inr (tt, {| collection := {[ 97 := ∅ ]} |}).
Proof.
  assert (absent (init (V:=Z)) (py "a")) as Habs.
  { left. vm_compute. reflexivity. }
  split; [exact Habs|].
  exact (proj1 (add_remove_absent (py "a") (PyObj 1) init Habs)).
Defined.

Lemma remove_preserves_other_lookup_witness :
  py "ba" ≠ py "ab"
  ∧ ∃ self' r,
      remove (py "ab")
        {| collection :=
             {[ 195 := {[ py "ab" := PyObj 1; py "ba" := PyObj 2 ]} ]} |}
      = inr (tt, self')
      ∧ lookup (py "ba")
          {| collection :=
               {[ 195 := {[ py "ab" := PyObj 1; py "ba" := PyObj 2 ]} ]} |}
        = inr (r, {| collection :=
               {[ 195 := {[ py "ab" := PyObj 1; py "ba" := PyObj 2 ]} ]} |})
      ∧ lookup (py "ba") self' = inr (r, self').
Proof.
  assert (py "ba" ≠ py "ab") as Hne by (vm_compute; discriminate).
  split; [exact Hne|].
  exact (remove_preserves_other_lookup _ (py "ab") (py "ba") Hne).
Defined.

Lemma lookup_result_witness :
  (∃ b : gmap str (object Z),
      collection {| collection := {[ 97 := {[ py "a" := @PyNone Z ]} ]} |}
        !! hash_code (py "a") = Some b
      ∧ b !! py "a" = Some PyNone)
  ∧ lookup (py "a") {| collection := {[ 97 := {[ py "a" := @PyNone Z ]} ]} |}
    = inr (PyNone, {| collection := {[ 97 := {[ py "a" := @PyNone Z ]} ]} |})
  ∧ lookup (py "a") (init (V:=Z)) = inr (PyNone, init).
Proof.
  assert (∃ b : gmap str (object Z),
      collection {| collection := {[ 97 := {[ py "a" := @PyNone Z ]} ]} |}
        !! hash_code (py "a") = Some b
      ∧ b !! py "a" = Some PyNone) as Hst.
  { exists {[ py "a" := @PyNone Z ]}. split; vm_compute; reflexivity. }
  split; [exact Hst|]. split.
  - exact (proj2 (proj2 (lookup_result _ (py "a"))) (or_intror Hst)).
  - apply (proj2 (proj2 (lookup_result init (py "a")))).
    left. left. vm_compute. reflexivity.
Defined.

Lemma other_buckets_untouched_witness :
  97 ≠ hash_code (py "ab")
  ∧ ∃ s1 s2,
      add (py "ab") (PyObj 2)
          {| collection := {[ 97 := {[ py "a" := PyObj 1 ]} ]} |}
      = inr (tt, s1)
      ∧ collection s1 !! 97 = Some {[ py "a" := PyObj 1 ]}
      ∧ remove (py "ab")
          {| collection := {[ 97 := {[ py "a" := PyObj 1 ]} ]} |}
        = inr (tt, s2)
      ∧ collection s2 !! 97 = Some {[ py "a" := PyObj 1 ]}.
Proof.
  assert (97 ≠ hash_code (py "ab")) as Hne by (vm_compute; discriminate).
  split; [exact Hne|].
  exact (other_buckets_untouched (py "ab") (PyObj 2)
           {| collection := {[ 97 := {[ py "a" := PyObj 1 ]} ]} |} 97 Hne).
Defined.

Lemma dictionary_refinement_witness :
  represents (init (V:=Z)) ∅
  ∧ ∃ self',
      add (py "cat") (PyObj 10) init = inr (tt, self')
      ∧ represents self' {[ py "cat" := PyObj 10 ]}.
Proof.
  assert (represents (init (V:=Z)) ∅) as Hm.
  { exact (proj1 (dictionary_refinement init ∅)). }
  split; [exact Hm|].
  exact (proj1 (proj2 (dictionary_refinement init ∅) Hm)
           (py "cat") (PyObj 10)).
Defined.

Lemma add_survives_other_calls_witness :
  Forall (λ c, call_key c ≠ py "cat")
         [Add (py "dog") (PyObj 20); Remove (py "act"); Lookup (py "dog")]
  ∧ ∃ s1 s2,
      add (py "cat") (PyObj 10) (init (V:=Z)) = inr (tt, s1)
      ∧ perform_all
          [Add (py "dog") (PyObj 20); Remove (py "act"); Lookup (py "dog")] s1
        = inr (tt, s2)
      ∧ lookup (py "cat") s2 = inr (PyObj 10, s2).
Proof.
  assert (Forall (λ c : call Z, call_key c ≠ py "cat")
            [Add (py "dog") (PyObj 20); Remove (py "act"); Lookup (py "dog")])
    as Hcs.
  { repeat constructor; vm_compute; discriminate. }
  split; [exact Hcs|].
  exact (add_survives_other_calls (py "cat") (PyObj 10) _ init Hcs).
Defined.
